(** * fixed-point.hpp: a shallow embedding of namespace [fp]

    The header defines a fixed-point value [fp::t<B, I, S>]: one stored
    integer [internal] of the storage kind [util::int_b<B, S>], read as
    [internal * 2^I].  Template arguments are embedded as ordinary values,
    with their types where the code passes one template's result to
    another ([from_int]); definition-time failures (a missing
    specialisation, an argument of the wrong kind, a narrowing initialiser,
    an unsatisfied requires-clause, a constant evaluation that never ends)
    as [None].

    Integers are [Z] with the wrap-around of each C++ type written out; the
    floating types are the IEEE 754 formats of [SpecFloat] (binary64 for
    [double], binary32 for [float]), whose [SFldexp] is the load-exponent
    primitive [std::ldexp]. *)

From Stdlib Require Import ZArith Lia Bool QArith Qpower String.
From Stdlib Require Import Floats.SpecFloat.

Local Open Scope Z_scope.

(** ** Option plumbing for definition-time failure *)

Definition bind {A B : Type} (o : option A) (k : A -> option B) : option B :=
  match o with
  | Some a => k a
  | None => None
  end.

Notation "x <- e ;; k" := (bind e (fun x => k))
  (at level 61, e at next level, right associativity).

(** ** The <cstdint> kinds behind [s_int], [u_int] and [int_b] *)

Inductive int_type : Type :=
| int8_t | int16_t | int32_t | int64_t
| uint8_t | uint16_t | uint32_t | uint64_t.

(** [valid_sign]: the tags [signed] and [unsigned]. *)
Inductive valid_sign : Type := signed | unsigned.

Definition is_signed_v (s : valid_sign) : bool :=
  match s with signed => true | unsigned => false end.

Definition bits (T : int_type) : Z :=
  match T with
  | int8_t | uint8_t => 8
  | int16_t | uint16_t => 16
  | int32_t | uint32_t => 32
  | int64_t | uint64_t => 64
  end.

Definition is_signed (T : int_type) : bool :=
  match T with
  | int8_t | int16_t | int32_t | int64_t => true
  | _ => false
  end.

(** [signedness<T>] *)
Definition signedness (T : int_type) : valid_sign :=
  if is_signed T then signed else unsigned.

Definition min_value (T : int_type) : Z :=
  if is_signed T then - 2 ^ (bits T - 1) else 0.

Definition max_value (T : int_type) : Z :=
  if is_signed T then 2 ^ (bits T - 1) - 1 else 2 ^ bits T - 1.

Definition in_range (T : int_type) (z : Z) : bool :=
  (min_value T <=? z) && (z <=? max_value T).

(** Conversion of a mathematical integer to [T]: the unique value of [T]
    congruent to it modulo [2^bits T]. *)
Definition wrap_unsigned (w z : Z) : Z := z mod 2 ^ w.
Definition wrap_signed (w z : Z) : Z :=
  (z + 2 ^ (w - 1)) mod 2 ^ w - 2 ^ (w - 1).

Definition wrap (T : int_type) (z : Z) : Z :=
  if is_signed T then wrap_signed (bits T) z else wrap_unsigned (bits T) z.

(** The specialisations written by [MAKEINT(8)] ... [MAKEINT(64)]; the
    primary templates have no member [type]. *)
Definition s_int (B : Z) : option int_type :=
  if B =? 8 then Some int8_t
  else if B =? 16 then Some int16_t
  else if B =? 32 then Some int32_t
  else if B =? 64 then Some int64_t
  else None.

Definition u_int (B : Z) : option int_type :=
  if B =? 8 then Some uint8_t
  else if B =? 16 then Some uint16_t
  else if B =? 32 then Some uint32_t
  else if B =? 64 then Some uint64_t
  else None.

(** [int_b<B, S>]: [std::conditional_t] names both [s_int<B>] and
    [u_int<B>], so both have to exist.  [B] is the value of a width of type
    [unsigned int], the type of the constants the specialisations are
    written for; [int_b_at] takes a width together with its type. *)
Definition int_b (B : Z) (S : valid_sign) : option int_type :=
  s <- s_int B ;;
  u <- u_int B ;;
  Some (if is_signed_v S then s else u).

(** ** Shift operators *)

(** Integral promotion of the left operand of a shift: kinds narrower than
    [int] become [int]. *)
Definition promote (T : int_type) : int_type :=
  if bits T <? 32 then int32_t else T.

(** The built-in [v << n] and [v >> n] on an operand of kind [T], the result
    converted back to [T] by the [return].  The left shift is the value
    congruent to [v * 2^n] in the promoted kind, the right shift is
    [v / 2^n] rounded down.  A count that is negative or not below the width
    of the promoted operand has no defined result. *)
Definition builtin_shl (T : int_type) (v n : Z) : option Z :=
  if (0 <=? n) && (n <? bits (promote T))
  then Some (wrap T (wrap (promote T) (Z.shiftl v n)))
  else None.

Definition builtin_shr (T : int_type) (v n : Z) : option Z :=
  if (0 <=? n) && (n <? bits (promote T))
  then Some (wrap T (Z.shiftr v n))
  else None.

(** [rshift<shift_amt>(v)] and [lshift<shift_amt>(v)] for an operand of
    kind [T]; the [if constexpr] picks one branch from the sign of the
    amount. *)
Definition rshift (shift_amt : Z) (T : int_type) (v : Z) : option Z :=
  if shift_amt <? 0
  then builtin_shl T v (- shift_amt)
  else builtin_shr T v shift_amt.

Definition lshift (shift_amt : Z) (T : int_type) (v : Z) : option Z :=
  if shift_amt <? 0
  then builtin_shr T v (- shift_amt)
  else builtin_shl T v shift_amt.

(** ** [byte_pow2_ceil] *)

Section Host.

(** The two host constants the function depends on: [CHAR_BIT] and the
    width of [std::size_t], the type of the candidate [c]. *)
Variable CHAR_BIT : Z.
Variable SIZE_WIDTH : Z.

Definition size_t_of (z : Z) : Z := z mod 2 ^ SIZE_WIDTH.

(** One run of [while (x > c) { c <<= 1U; }] from candidate [c], cut after
    [fuel] tests of the condition. *)
Fixpoint byte_pow2_ceil_loop (fuel : nat) (x c : Z) : option Z :=
  match fuel with
  | O => None
  | S fuel' =>
      if x >? c
      then byte_pow2_ceil_loop fuel' x (size_t_of (Z.shiftl c 1))
      else Some c
  end.

(** After [SIZE_WIDTH] doublings the candidate is 0 for good, so
    [SIZE_WIDTH + 1] tests decide the loop (see [byte_pow2_ceil_None]). *)
Definition byte_pow2_ceil (x : Z) : option Z :=
  byte_pow2_ceil_loop (S (Z.to_nat SIZE_WIDTH)) x (size_t_of CHAR_BIT).

(** [static_assert(byte_pow2_ceil(8U) == 8U, ...)] *)
Definition static_assert_byte_size : bool :=
  match byte_pow2_ceil 8 with
  | Some c => c =? 8
  | None => false
  end.

End Host.

(** ** The value type [t<B, I, S>] *)

(** The values of the three template arguments of [t], for an
    instantiation whose arguments have the types [t] asks for
    ([instantiate_t]). *)
Module shape.
Record t : Type := make { B : Z; I : Z; S : valid_sign }.
End shape.

(** A value: its shape and the one data member [internal]. *)
Record t : Type := mk_t { shape_of : shape.t; internal : Z }.

(** A value exists when [int_b<B, S>] names a type for its member and the
    stored integer is one of that type's values. *)
Definition well_formed (v : t) : bool :=
  match int_b (shape.B (shape_of v)) (shape.S (shape_of v)) with
  | Some T => in_range T (internal v)
  | None => false
  end.

(** [static_cast<int>(I)], with a 32-bit [int]. *)
Definition static_cast_int (i : Z) : Z := wrap int32_t i.

(** The requires-clause of both floating conversions. *)
Definition exponent_guard (v : t) : bool :=
  static_cast_int (shape.I (shape_of v)) =? shape.I (shape_of v).

(** [static_cast<float>(internal)] and [static_cast<double>(internal)]: the
    integer rounded to nearest, ties to even, in binary32 and binary64. *)
Definition static_cast_float (m : Z) : spec_float :=
  binary_normalize 24 128 m 0 false.
Definition static_cast_double (m : Z) : spec_float :=
  binary_normalize 53 1024 m 0 false.

(** [std::ldexpf] and [std::ldexp] *)
Definition ldexpf (x : spec_float) (e : Z) : spec_float := SFldexp 24 128 x e.
Definition ldexp (x : spec_float) (e : Z) : spec_float := SFldexp 53 1024 x e.

Definition operator_float (v : t) : option spec_float :=
  if exponent_guard v
  then Some (ldexpf (static_cast_float (internal v))
               (static_cast_int (shape.I (shape_of v))))
  else None.

Definition operator_double (v : t) : option spec_float :=
  if exponent_guard v
  then Some (ldexp (static_cast_double (internal v))
               (static_cast_int (shape.I (shape_of v))))
  else None.

(** The rational a floating value stands for; infinities and NaN stand for
    none. *)
Definition SF2Q (x : spec_float) : option Q :=
  match x with
  | S754_zero _ => Some 0%Q
  | S754_finite s m e =>
      Some (inject_Z (if s then Z.neg m else Z.pos m) * 2 ^ e)%Q
  | S754_infinity _ | S754_nan => None
  end.

(** [x] is finite and stands for exactly [q]. *)
Definition represents (x : spec_float) (q : Q) : Prop :=
  match SF2Q x with
  | Some r => (r == q)%Q
  | None => False
  end.

Section Text.

(** [FP_NOSTR] as the preprocessor sees it: undefined, or defined to a
    number. *)
Variable FP_NOSTR : option Z.

(** [std::to_string(double)], provided by the host library. *)
Variable to_string : spec_float -> string.

(** [#error "FP_NOSTR must be either not defined or defined to 1"] *)
Definition configuration_accepted : bool :=
  match FP_NOSTR with
  | None => true
  | Some d => d =? 1
  end.

(** [operator std::string]: declared without a requires-clause, inside
    [#ifndef FP_NOSTR]; its body calls [operator double()]. *)
Definition operator_string (v : t) : option string :=
  match FP_NOSTR with
  | None => d <- operator_double v ;; Some (to_string d)
  | Some _ => None
  end.

End Text.

(** ** [from_int] *)

(** [std::bit_width] *)
Definition bit_width (x : Z) : Z :=
  if x =? 0 then 0 else Z.log2 x + 1.

(** *** Typed template arguments *)

(** The standard integer types.  A template parameter declared [auto]
    keeps the type of its argument, and the concepts [std::integral],
    [std::unsigned_integral] and [std::signed_integral] test it.  ([bool] and
    the character types, also integral, promote like the narrow kinds.) *)
Inductive ctype : Type :=
| c_schar | c_short | c_int | c_long | c_llong
| c_uchar | c_ushort | c_uint | c_ulong | c_ullong.

Definition unsigned_integral (ty : ctype) : bool :=
  match ty with
  | c_uchar | c_ushort | c_uint | c_ulong | c_ullong => true
  | _ => false
  end.

Definition signed_integral (ty : ctype) : bool := negb (unsigned_integral ty).

(** A constant template argument: its type and its value. *)
Record constant : Type := mk_constant { type_of : ctype; value_of : Z }.

(** [MAKEINT(B)] specialises [s_int_struct<B##U>] and [u_int_struct<B##U>],
    and [8U], [16U], [32U], [64U] are [unsigned int] constants: for a width
    of another type only the primary templates match, and they have no
    member [type]. *)
Definition is_unsigned_int (ty : ctype) : bool :=
  match ty with c_uint => true | _ => false end.

(** [int_b<B, S>] for a width given with its type. *)
Definition int_b_at (B : constant) (S : valid_sign) : option int_type :=
  if is_unsigned_int (type_of B) then int_b (value_of B) S else None.

(** The instantiation [t<B, I, S>]: line 65 asks an unsigned type of [B]
    and a signed type of [I], line 67 needs [int_b<B, S>] to name a type. *)
Definition instantiate_t (B I : constant) (S : valid_sign) : option shape.t :=
  if unsigned_integral (type_of B) && signed_integral (type_of I)
  then T <- int_b_at B S ;; Some (shape.make (value_of B) (value_of I) S)
  else None.

(** [std::abs] on an integer constant of type [ty].  The overloads for
    integers take [int], [long] and [long long]; the narrow kinds reach the
    first by integral promotion, and a call on [unsigned int] or a wider
    unsigned type is ill-formed. *)
Definition std_abs (ty : ctype) (n : Z) : option constant :=
  match ty with
  | c_schar | c_short | c_int | c_uchar | c_ushort =>
      Some (mk_constant c_int (Z.abs n))
  | c_long => Some (mk_constant c_long (Z.abs n))
  | c_llong => Some (mk_constant c_llong (Z.abs n))
  | c_uint | c_ulong | c_ullong => None
  end.

Section Literal.

Variable CHAR_BIT : Z.
Variable SIZE_WIDTH : Z.

(** The type [std::size_t] stands for on the host. *)
Variable size_type : ctype.

(** The type of the result of [std::bit_width] on an operand of a given
    type, which the library chooses ([int], or the operand's type in
    earlier libraries). *)
Variable bit_width_type : ctype -> ctype.

(** [std::bit_width] takes unsigned operands only. *)
Definition std_bit_width (x : constant) : option constant :=
  if unsigned_integral (type_of x)
  then Some (mk_constant (bit_width_type (type_of x)) (bit_width (value_of x)))
  else None.

(** [byte_pow2_ceil] on a typed argument: the parameter is
    [std::unsigned_integral auto], the result a [std::size_t]. *)
Definition byte_pow2_ceil_at (x : constant) : option constant :=
  if unsigned_integral (type_of x)
  then r <- byte_pow2_ceil CHAR_BIT SIZE_WIDTH (value_of x) ;;
       Some (mk_constant size_type r)
  else None.

(** The variable template [from_int<I>] for a constant [n] of type [ty]:
    the three template arguments of [t] as lines 78 to 80 write them (the
    second is the same expression as the first), the instantiation of [t]
    on them, then the designated initialiser [{ .internal = I }], which
    rejects a constant that its target type cannot hold. *)
Definition from_int (ty : ctype) (n : Z) : option t :=
  a <- std_abs ty n ;;
  w <- std_bit_width a ;;
  b <- byte_pow2_ceil_at w ;;
  a' <- std_abs ty n ;;
  w' <- std_bit_width a' ;;
  i <- byte_pow2_ceil_at w' ;;
  let s := if n <? 0 then signed else unsigned in
  sh <- instantiate_t b i s ;;
  T <- int_b_at b s ;;
  if in_range T n then Some (mk_t sh n) else None.

(** What the property "literal exactness" asks of a constant [n]: the
    literal exists, converts to double, and the double is [n]. *)
Definition literal_exact (ty : ctype) (n : Z) : Prop :=
  exists v d,
    from_int ty n = Some v /\
    operator_double v = Some d /\
    represents d (inject_Z n).

End Literal.

(** What "the text conversion is available for every shape" asks. *)
Definition text_unconditional : Prop :=
  forall (to_string : spec_float -> string) (v : t),
    well_formed v = true ->
    exists s, operator_string None to_string v = Some s.

(** The candidate after one [c <<= 1U]. *)
Definition doubled (SIZE_WIDTH c : Z) : Z :=
  size_t_of SIZE_WIDTH (Z.shiftl c 1).

(** The supported ladder of storage widths. *)
Definition ladder (r : Z) : Prop := r = 8 \/ r = 16 \/ r = 32 \/ r = 64.

(** ** Text and stream overloads *)

Section Overloads.

Variable FP_NOSTR : option Z.
Variable to_string : spec_float -> string.

(** The [operator+] overloads with the text on the left (an owned string by
    rvalue or const reference, or a [char const*]; the value by rvalue or
    const reference): each returns [s + static_cast<std::string>(v)]. *)
Definition plus_string_t (s : string) (v : t) : option string :=
  r <- operator_string FP_NOSTR to_string v ;; Some (s ++ r)%string.

(** The [operator+] overloads with the text on the right: each returns
    [static_cast<std::string>(v) + s]. *)
Definition plus_t_string (v : t) (s : string) : option string :=
  r <- operator_string FP_NOSTR to_string v ;; Some (r ++ s)%string.

(** Both [operator<<] overloads, [os << static_cast<std::string>(v)]; the
    stream is the text written to it so far. *)
Definition stream_insert (os : string) (v : t) : option string :=
  r <- operator_string FP_NOSTR to_string v ;; Some (os ++ r)%string.

End Overloads.

(** ** Proof automation for the integer kinds *)

(** Replace every [2 ^ n] whose exponent is closed by its value. *)
Ltac eval_pow2 :=
  repeat match goal with
         | |- context [2 ^ ?n] =>
             let v := eval vm_compute in (2 ^ n) in
             lazymatch v with
             | Z.pos _ => progress change (2 ^ n) with v
             end
         end.

(** Open the conversions of a known kind down to [mod] on literals. *)
Ltac unfold_kind :=
  cbv [wrap promote is_signed bits min_value max_value
       wrap_signed wrap_unsigned Z.ltb Z.compare Pos.compare
       Pos.compare_cont];
  eval_pow2.

(** * Properties *)

(** ** The loop of [byte_pow2_ceil] and its candidates *)

Section Loop.

Variable W : Z.
Hypothesis W_nonneg : 0 <= W.

Lemma loop_unfold fuel x c :
  byte_pow2_ceil_loop W (S fuel) x c =
  if x >? c then byte_pow2_ceil_loop W fuel x (doubled W c) else Some c.
Proof. reflexivity. Qed.

Lemma candidates_closed k c :
  Nat.iter k (doubled W) (size_t_of W c) = (c * 2 ^ Z.of_nat k) mod 2 ^ W.
Proof using W_nonneg.
  induction k as [|k IH].
  - simpl. unfold size_t_of. now rewrite Z.mul_1_r.
  - rewrite Nat.iter_succ, IH. unfold doubled, size_t_of.
    rewrite Z.shiftl_mul_pow2 by lia.
    rewrite Z.mul_mod_idemp_l by (apply Z.pow_nonzero; lia).
    rewrite Nat2Z.inj_succ, Z.pow_succ_r by lia.
    f_equal. ring.
Qed.

(** Running out of fuel means every candidate tested was too small. *)
Lemma loop_None fuel x c :
  byte_pow2_ceil_loop W fuel x c = None <->
  forall k, (k < fuel)%nat -> Nat.iter k (doubled W) c < x.
Proof.
  revert c. induction fuel as [|fuel IH]; intros c.
  - simpl. split; [intros _ k Hk; lia | reflexivity].
  - rewrite loop_unfold. destruct (Z.gtb_spec x c) as [Hgt | Hle].
    + rewrite IH. split.
      * intros H [|k] Hk; [simpl; lia|].
        rewrite Nat.iter_succ_r. apply H. lia.
      * intros H k Hk. rewrite <- Nat.iter_succ_r. apply H. lia.
    + split; [discriminate|].
      intros H. specialize (H O ltac:(lia)). simpl in H. lia.
Qed.

(** A result is the first candidate that is not below the argument. *)
Lemma loop_Some fuel x c r :
  byte_pow2_ceil_loop W fuel x c = Some r <->
  exists k, (k < fuel)%nat /\ r = Nat.iter k (doubled W) c /\ x <= r /\
            forall j, (j < k)%nat -> Nat.iter j (doubled W) c < x.
Proof.
  revert c. induction fuel as [|fuel IH]; intros c.
  - simpl. split; [discriminate | intros (k & Hk & _); lia].
  - rewrite loop_unfold. destruct (Z.gtb_spec x c) as [Hgt | Hle].
    + rewrite IH. split.
      * intros (k & Hk & Hr & Hx & Hlt). exists (S k).
        rewrite Nat.iter_succ_r. repeat split; try lia; try assumption.
        intros [|j] Hj; [simpl; lia|].
        rewrite Nat.iter_succ_r. apply Hlt. lia.
      * intros (k & Hk & Hr & Hx & Hlt). destruct k as [|k].
        { simpl in Hr. lia. }
        exists k. rewrite Nat.iter_succ_r in Hr.
        repeat split; try lia; try assumption.
        intros j Hj. rewrite <- Nat.iter_succ_r. apply Hlt. lia.
    + split.
      * intros [= <-]. exists O. repeat split; lia.
      * intros (k & Hk & Hr & Hx & Hlt). destruct k as [|k].
        { simpl in Hr. now subst. }
        specialize (Hlt O ltac:(lia)). simpl in Hlt. lia.
Qed.

Lemma loop_more_fuel fuel fuel' x c r :
  (fuel <= fuel')%nat ->
  byte_pow2_ceil_loop W fuel x c = Some r ->
  byte_pow2_ceil_loop W fuel' x c = Some r.
Proof.
  intros Hle. rewrite !loop_Some.
  intros (k & Hk & H). exists k. split; [lia | exact H].
Qed.

Lemma loop_result_ge fuel x c r :
  byte_pow2_ceil_loop W fuel x c = Some r -> x <= r.
Proof. rewrite loop_Some. intros (k & _ & _ & H & _). exact H. Qed.

(** From the [W]-th doubling on the candidate is 0. *)
Lemma candidates_vanish k c :
  (Z.to_nat W <= k)%nat -> Nat.iter k (doubled W) (size_t_of W c) = 0.
Proof using W_nonneg.
  intros Hk. rewrite candidates_closed.
  replace (Z.of_nat k) with (W + (Z.of_nat k - W)) by lia.
  rewrite Z.pow_add_r by lia.
  rewrite (Z.mul_comm (2 ^ W)), Z.mul_assoc.
  apply Z_mod_mult.
Qed.

(** The fuel of [byte_pow2_ceil] decides the loop: no result within
    [W + 1] tests means no result at all. *)
Lemma byte_pow2_ceil_None CB x :
  byte_pow2_ceil CB W x = None <->
  forall fuel, byte_pow2_ceil_loop W fuel x (size_t_of W CB) = None.
Proof using W_nonneg.
  unfold byte_pow2_ceil. split.
  - intros H fuel. rewrite loop_None in *. intros k Hk.
    destruct (Nat.lt_ge_cases k (S (Z.to_nat W))) as [Hlt | Hge].
    + now apply H.
    + rewrite candidates_vanish by lia.
      specialize (H (Z.to_nat W) ltac:(lia)).
      rewrite candidates_vanish in H by lia. exact H.
  - intros H. apply H.
Qed.

Lemma byte_pow2_ceil_Some CB x r :
  byte_pow2_ceil CB W x = Some r <->
  exists fuel, byte_pow2_ceil_loop W fuel x (size_t_of W CB) = Some r.
Proof using W_nonneg.
  split.
  - intros H. now exists (S (Z.to_nat W)).
  - intros (fuel & H).
    destruct (byte_pow2_ceil CB W x) as [r'|] eqn:E.
    + unfold byte_pow2_ceil in E.
      destruct (Nat.le_ge_cases fuel (S (Z.to_nat W))) as [Hle | Hle].
      * now rewrite (loop_more_fuel _ _ _ _ _ Hle H) in E.
      * rewrite (loop_more_fuel _ _ _ _ _ Hle E) in H. exact H.
    + rewrite byte_pow2_ceil_None in E. now rewrite E in H.
Qed.

End Loop.

(** ** With 8-bit bytes the candidates are 8, 16, 32, ... and then 0 *)

Lemma size_t_of_small W c : 0 <= c < 2 ^ W -> size_t_of W c = c.
Proof. intros H. unfold size_t_of. now apply Z.mod_small. Qed.

Lemma candidate_8 W k :
  0 <= W -> Z.of_nat k + 3 < W ->
  Nat.iter k (doubled W) (size_t_of W 8) = 2 ^ (Z.of_nat k + 3).
Proof.
  intros HW Hk. rewrite candidates_closed by assumption.
  replace (8 * 2 ^ Z.of_nat k) with (2 ^ (Z.of_nat k + 3))
    by (rewrite Z.pow_add_r by lia; change (2 ^ 3) with 8; ring).
  apply Z.mod_small. split; [apply Z.pow_nonneg; lia|].
  apply Z.pow_lt_mono_r; lia.
Qed.

Lemma candidate_8_wrapped W k :
  0 <= W -> W <= Z.of_nat k + 3 ->
  Nat.iter k (doubled W) (size_t_of W 8) = 0.
Proof.
  intros HW Hk. rewrite candidates_closed by assumption.
  replace (8 * 2 ^ Z.of_nat k) with (2 ^ (Z.of_nat k + 3 - W) * 2 ^ W).
  - apply Z_mod_mult.
  - rewrite <- Z.pow_add_r by lia.
    replace (Z.of_nat k + 3 - W + W) with (Z.of_nat k + 3) by lia.
    rewrite Z.pow_add_r by lia. change (2 ^ 3) with 8. ring.
Qed.

(** The result is the first power [2^(k+3)] that reaches [x]. *)
Lemma byte_pow2_ceil_first W x k :
  0 <= W -> Z.of_nat k + 3 < W ->
  x <= 2 ^ (Z.of_nat k + 3) ->
  (forall j, (j < k)%nat -> 2 ^ (Z.of_nat j + 3) < x) ->
  byte_pow2_ceil 8 W x = Some (2 ^ (Z.of_nat k + 3)).
Proof.
  intros HW Hk Hx Hlt. unfold byte_pow2_ceil. apply loop_Some.
  exists k. rewrite candidate_8 by assumption.
  repeat split; try lia.
  intros j Hj. rewrite candidate_8 by lia. now apply Hlt.
Qed.

(** Within half the range of [std::size_t] the loop ends ... *)
Lemma byte_pow2_ceil_terminates W x :
  4 <= W -> x <= 2 ^ (W - 1) ->
  exists r, byte_pow2_ceil 8 W x = Some r /\ x <= r.
Proof.
  intros HW Hx. destruct (byte_pow2_ceil 8 W x) as [r|] eqn:E.
  - exists r. split; [reflexivity|]. unfold byte_pow2_ceil in E.
    now apply loop_result_ge in E.
  - exfalso. unfold byte_pow2_ceil in E. rewrite loop_None in E.
    specialize (E (Z.to_nat (W - 4)) ltac:(lia)).
    rewrite candidate_8 in E by lia.
    replace (Z.of_nat (Z.to_nat (W - 4)) + 3) with (W - 1) in E by lia.
    lia.
Qed.

(** ... and beyond it the candidate wraps to 0 and the loop never ends. *)
Lemma byte_pow2_ceil_diverges W x :
  4 <= W -> 2 ^ (W - 1) < x ->
  forall fuel, byte_pow2_ceil_loop W fuel x (size_t_of W 8) = None.
Proof.
  intros HW Hx fuel. apply loop_None. intros k _.
  destruct (Z.lt_ge_cases (Z.of_nat k + 3) W) as [Hk | Hk].
  - rewrite candidate_8 by lia.
    apply Z.le_lt_trans with (2 ^ (W - 1)); [|exact Hx].
    apply Z.pow_le_mono_r; lia.
  - rewrite candidate_8_wrapped by lia.
    apply Z.le_lt_trans with (2 ^ (W - 1)); [|exact Hx].
    apply Z.pow_nonneg. lia.
Qed.

(** ** Storage kinds *)

Lemma int_b_Some B S T :
  int_b B S = Some T -> ladder B /\ bits T = B /\ is_signed T = is_signed_v S.
Proof.
  unfold int_b, s_int, u_int, ladder, bind.
  destruct (Z.eqb_spec B 8) as [-> | H8]; simpl.
  { intros [= <-]. now destruct S; auto. }
  destruct (Z.eqb_spec B 16) as [-> | H16]; simpl.
  { intros [= <-]. now destruct S; auto. }
  destruct (Z.eqb_spec B 32) as [-> | H32]; simpl.
  { intros [= <-]. now destruct S; auto 6. }
  destruct (Z.eqb_spec B 64) as [-> | H64]; simpl.
  { intros [= <-]. now destruct S; auto 6. }
  discriminate.
Qed.

Lemma int_b_None B S : ~ ladder B -> int_b B S = None.
Proof.
  intros H. destruct (int_b B S) as [T|] eqn:E; [|reflexivity].
  apply int_b_Some in E. tauto.
Qed.

(** ** The resolver on requests up to 64 *)

(** C6: with 8-bit bytes and a [std::size_t] of at least 7 bits, every request
    [B1 <= 64] resolves, by doubling from 8 while the candidate is below the
    request, to the smallest ladder member that is at least [B1]; and the
    resolved width is monotone in the request. *)
Theorem byte_pow2_ceil_ladder W B1 B2 :
  7 <= W -> 0 <= B1 -> B1 <= B2 -> B2 <= 64 ->
  exists r1 r2 k,
    byte_pow2_ceil 8 W B1 = Some r1 /\
    byte_pow2_ceil 8 W B2 = Some r2 /\
    r1 = 8 * 2 ^ Z.of_nat k /\
    (forall j, (j < k)%nat -> 8 * 2 ^ Z.of_nat j < B1) /\
    ladder r1 /\ B1 <= r1 /\
    (forall m, ladder m -> B1 <= m -> r1 <= m) /\
    r1 <= r2.
Proof.
  intros HW H0 H12 H64.
  assert (Hres : forall B, 0 <= B <= 64 ->
            exists k, (k <= 3)%nat /\
              byte_pow2_ceil 8 W B = Some (2 ^ (Z.of_nat k + 3)) /\
              B <= 2 ^ (Z.of_nat k + 3) /\
              forall j, (j < k)%nat -> 2 ^ (Z.of_nat j + 3) < B).
  { intros B HB.
    assert (Hk : exists k, (k <= 3)%nat /\ B <= 2 ^ (Z.of_nat k + 3) /\
               forall j, (j < k)%nat -> 2 ^ (Z.of_nat j + 3) < B).
    { destruct (Z.le_gt_cases B 8); [exists 0%nat|
      destruct (Z.le_gt_cases B 16); [exists 1%nat|
      destruct (Z.le_gt_cases B 32); [exists 2%nat|exists 3%nat]]];
      (split; [lia|]); (split; [simpl; lia|]);
      intros j Hj;
      assert (Hj' : j = 0%nat \/ j = 1%nat \/ j = 2%nat) by lia;
      destruct Hj' as [-> | [-> | ->]]; simpl; lia. }
    destruct Hk as (k & Hk & Hle & Hlt). exists k.
    repeat split; try assumption.
    apply byte_pow2_ceil_first; try assumption; lia. }
  destruct (Hres B1 ltac:(lia)) as (k1 & Hk1 & E1 & Hle1 & Hlt1).
  destruct (Hres B2 ltac:(lia)) as (k2 & Hk2 & E2 & Hle2 & Hlt2).
  assert (Hpow : forall j, 2 ^ (Z.of_nat j + 3) = 8 * 2 ^ Z.of_nat j).
  { intros j. rewrite Z.pow_add_r by lia. change (2 ^ 3) with 8. ring. }
  exists (2 ^ (Z.of_nat k1 + 3)), (2 ^ (Z.of_nat k2 + 3)), k1.
  split; [exact E1|]. split; [exact E2|]. split; [apply Hpow|].
  split; [intros j Hj; rewrite <- Hpow; now apply Hlt1|].
  split.
  { unfold ladder.
    assert (Hc : (k1 = 0 \/ k1 = 1 \/ k1 = 2 \/ k1 = 3)%nat) by lia.
    destruct Hc as [-> | [-> | [-> | ->]]]; simpl; auto. }
  split; [exact Hle1|]. split.
  - intros m Hm HB.
    assert (Hc : (k1 = 0 \/ k1 = 1 \/ k1 = 2 \/ k1 = 3)%nat) by lia.
    unfold ladder in Hm.
    destruct Hc as [-> | [-> | [-> | ->]]].
    + simpl. lia.
    + specialize (Hlt1 0%nat ltac:(lia)). simpl in *. lia.
    + specialize (Hlt1 1%nat ltac:(lia)). simpl in *. lia.
    + specialize (Hlt1 2%nat ltac:(lia)). simpl in *. lia.
  - apply Z.pow_le_mono_r; [lia|].
    destruct (Nat.le_gt_cases k1 k2) as [Hk | Hk]; [lia|].
    specialize (Hlt1 k2 Hk). lia.
Qed.

Lemma byte_pow2_ceil_ladder_witness :
  7 <= 64 /\ 0 <= 9 /\ 9 <= 33 /\ 33 <= 64 /\
  exists r1 r2 k,
    byte_pow2_ceil 8 64 9 = Some r1 /\
    byte_pow2_ceil 8 64 33 = Some r2 /\
    r1 = 8 * 2 ^ Z.of_nat k /\
    (forall j, (j < k)%nat -> 8 * 2 ^ Z.of_nat j < 9) /\
    ladder r1 /\ 9 <= r1 /\
    (forall m, ladder m -> 9 <= m -> r1 <= m) /\
    r1 <= r2.
Proof.
  split; [lia|]. split; [lia|]. split; [lia|]. split; [lia|].
  apply (byte_pow2_ceil_ladder 64 9 33); lia.
Defined.

(** ** Requests above 64 *)

(** C7: a request [B > 64] names no storage kind, whether it reaches [int_b]
    as it is (as in [t<B, I, S>]) or through [byte_pow2_ceil] (as in
    [from_int]); so no value of such a shape exists. *)
Theorem wide_request_rejected CB W B S :
  64 < B ->
  int_b B S = None /\
  (r <- byte_pow2_ceil CB W B ;; int_b r S) = None /\
  forall I m, well_formed (mk_t (shape.make B I S) m) = false.
Proof.
  intros HB.
  assert (Hnone : forall r, B <= r -> int_b r S = None).
  { intros r Hr. apply int_b_None. unfold ladder. lia. }
  split; [apply Hnone; lia|]. split.
  - destruct (byte_pow2_ceil CB W B) as [r|] eqn:E; [|reflexivity].
    simpl. apply Hnone. unfold byte_pow2_ceil in E.
    now apply loop_result_ge in E.
  - intros I m. unfold well_formed. simpl.
    now rewrite Hnone by lia.
Qed.

Lemma wide_request_rejected_witness :
  64 < 65 /\
  int_b 65 unsigned = None /\
  (r <- byte_pow2_ceil 8 64 65 ;; int_b r unsigned) = None /\
  forall I m, well_formed (mk_t (shape.make 65 I unsigned) m) = false.
Proof.
  split; [lia|]. apply (wide_request_rejected 8 64 65 unsigned). lia.
Defined.

(** ** The byte-size assertion *)

(** C8: on a host whose byte has at least 8 bits (the least the language
    allows) and whose [std::size_t] can hold the byte size, the asserted
    predicate [byte_pow2_ceil(8U) == 8U] holds exactly when the byte size
    is 8. *)
Theorem static_assert_byte_size_iff CB W :
  8 <= CB -> CB < 2 ^ W ->
  (static_assert_byte_size CB W = true <-> CB = 8).
Proof.
  intros H8 HW. unfold static_assert_byte_size, byte_pow2_ceil.
  rewrite loop_unfold, size_t_of_small by lia.
  destruct (Z.gtb_spec 8 CB) as [Hgt | _]; [lia|].
  apply Z.eqb_eq.
Qed.

Lemma static_assert_byte_size_iff_witness :
  8 <= 8 /\ 8 < 2 ^ 64 /\ (static_assert_byte_size 8 64 = true <-> 8 = 8).
Proof.
  split; [lia|]. split; [reflexivity|].
  apply (static_assert_byte_size_iff 8 64); [lia | reflexivity].
Defined.

(** ** Termination *)

(** C9: on a host with 8-bit bytes and a 64-bit [std::size_t], the call
    [byte_pow2_ceil(x)] with [x = 2^63 + 1] yields no result, however many
    times the loop condition is tested: the candidate passes 2^63, wraps to
    0 and stays below [x]. *)
Theorem byte_pow2_ceil_loops_forever :
  byte_pow2_ceil 8 64 (2 ^ 63 + 1) = None /\
  forall fuel,
    byte_pow2_ceil_loop 64 fuel (2 ^ 63 + 1) (size_t_of 64 8) = None.
Proof.
  assert (H : forall fuel,
             byte_pow2_ceil_loop 64 fuel (2 ^ 63 + 1) (size_t_of 64 8) = None).
  { apply byte_pow2_ceil_diverges; [lia|]. change (64 - 1) with 63. lia. }
  split; [apply H | exact H].
Qed.

(** ** Conversions between integer kinds *)

Lemma wrap_promote T x : wrap T (wrap (promote T) x) = wrap T x.
Proof.
  destruct T; unfold_kind; try reflexivity;
    Z.div_mod_to_equations; lia.
Qed.

Lemma in_range_bounds T z :
  in_range T z = true <-> min_value T <= z <= max_value T.
Proof. unfold in_range. rewrite andb_true_iff, !Z.leb_le. tauto. Qed.

Lemma wrap_in_range T z : in_range T z = true -> wrap T z = z.
Proof.
  rewrite in_range_bounds.
  destruct T; unfold_kind; intros H; Z.div_mod_to_equations; lia.
Qed.

Lemma wrap_unsigned_kind T z :
  is_signed T = false -> wrap T z = z mod 2 ^ bits T.
Proof. unfold wrap. now intros ->. Qed.

Lemma bits_promote T : bits T <= bits (promote T).
Proof. now destruct T. Qed.

Lemma bits_pos T : 8 <= bits T.
Proof. destruct T; simpl; lia. Qed.

(** A right shift keeps a value inside its kind. *)
Lemma shiftr_in_range T v n :
  0 <= n -> in_range T v = true -> in_range T (Z.shiftr v n) = true.
Proof.
  intros Hn. rewrite !in_range_bounds, Z.shiftr_div_pow2 by assumption.
  assert (Hp : 0 < 2 ^ n) by (apply Z.pow_pos_nonneg; lia).
  assert (Hlo : min_value T <= 0) by (destruct T; now unfold_kind).
  assert (Hhi : 0 <= max_value T) by (destruct T; now unfold_kind).
  intros [Hmin Hmax]. destruct (Z.le_gt_cases 0 v) as [Hv | Hv].
  - split.
    + apply Z.le_trans with 0; [exact Hlo | now apply Z.div_pos].
    + apply Z.le_trans with v; [|exact Hmax].
      apply Z.div_le_upper_bound; [exact Hp | nia].
  - split.
    + apply Z.le_trans with v; [exact Hmin|].
      apply Z.div_le_lower_bound; [exact Hp | nia].
    + apply Z.le_trans with 0; [|exact Hhi].
      apply Z.lt_le_incl, Z.div_lt_upper_bound; [exact Hp | lia].
Qed.

(** ** The shift primitives *)

Lemma builtin_shl_defined T v n :
  0 <= n < bits (promote T) -> builtin_shl T v n = Some (wrap T (v * 2 ^ n)).
Proof.
  intros Hn. unfold builtin_shl.
  replace ((0 <=? n) && (n <? bits (promote T))) with true
    by (symmetry; apply andb_true_iff; split;
        [apply Z.leb_le | apply Z.ltb_lt]; lia).
  now rewrite wrap_promote, Z.shiftl_mul_pow2 by lia.
Qed.

Lemma builtin_shr_defined T v n :
  0 <= n < bits (promote T) -> in_range T v = true ->
  builtin_shr T v n = Some (v / 2 ^ n).
Proof.
  intros Hn Hv. unfold builtin_shr.
  replace ((0 <=? n) && (n <? bits (promote T))) with true
    by (symmetry; apply andb_true_iff; split;
        [apply Z.leb_le | apply Z.ltb_lt]; lia).
  rewrite wrap_in_range by (apply shiftr_in_range; [lia | exact Hv]).
  now rewrite Z.shiftr_div_pow2 by lia.
Qed.

(** C3: the sign of the fixed amount picks the direction.  For every operand
    and amount, [rshift<k>] is the built-in right shift by [k] when [k] is
    not negative and the built-in left shift by [|k|] when it is, and
    [lshift<k>] is the mirror; for an amount inside the width of the
    promoted operand the results are [v / 2^k] (rounded down) and
    [v * 2^k] brought back to the operand's kind.  [rshift<-2>(1)] is
    [lshift<2>(1)], which is 4. *)
Theorem shift_direction T v k :
  in_range T v = true ->
  rshift k T v =
    (if k <? 0 then builtin_shl T v (Z.abs k) else builtin_shr T v k) /\
  lshift k T v =
    (if k <? 0 then builtin_shr T v (Z.abs k) else builtin_shl T v k) /\
  (0 <= k < bits (promote T) ->
   rshift k T v = Some (v / 2 ^ k) /\
   lshift k T v = Some (wrap T (v * 2 ^ k))) /\
  (- bits (promote T) < k < 0 ->
   rshift k T v = Some (wrap T (v * 2 ^ Z.abs k)) /\
   lshift k T v = Some (v / 2 ^ Z.abs k)) /\
  rshift (-2) T 1 = lshift 2 T 1 /\
  lshift 2 T 1 = Some 4.
Proof.
  intros Hv. unfold rshift, lshift.
  destruct (Z.ltb_spec k 0) as [Hk | Hk].
  - rewrite <- (Z.abs_neq k) by lia.
    split; [reflexivity|]. split; [reflexivity|].
    split; [lia|]. split.
    + intros H.
      split; [apply builtin_shl_defined | apply builtin_shr_defined];
        trivial; lia.
    + now destruct T.
  - split; [reflexivity|]. split; [reflexivity|].
    split.
    + intros H.
      split; [apply builtin_shr_defined | apply builtin_shl_defined];
        trivial; lia.
    + split; [lia | now destruct T].
Qed.

Lemma shift_direction_witness :
  in_range int32_t 1 = true /\
  rshift (-2) int32_t 1 = builtin_shl int32_t 1 2 /\
  lshift (-2) int32_t 1 = builtin_shr int32_t 1 2 /\
  rshift (-2) int32_t 1 = Some 4 /\
  lshift (-2) int32_t 1 = Some 0.
Proof.
  destruct (shift_direction int32_t 1 (-2) eq_refl)
    as (Hr & Hl & _ & Hneg & _).
  split; [reflexivity|]. split; [exact Hr|]. split; [exact Hl|].
  apply Hneg. simpl. lia.
Defined.

(** C10: on an unsigned operand of width [w], a left shift by [k < w] gives
    [(v * 2^k) mod 2^w] in the operand's own kind: the bits that the
    promoted intermediate keeps beyond [w] are dropped by the return. *)
Theorem lshift_unsigned_wraps T v k :
  is_signed T = false ->
  0 <= v < 2 ^ bits T ->
  0 <= k < bits T ->
  lshift k T v = Some ((v * 2 ^ k) mod 2 ^ bits T).
Proof.
  intros Hu Hv Hk. unfold lshift.
  destruct (Z.ltb_spec k 0) as [Hneg | _]; [lia|].
  pose proof (bits_promote T).
  rewrite builtin_shl_defined by lia.
  now rewrite wrap_unsigned_kind.
Qed.

Lemma lshift_unsigned_wraps_witness :
  is_signed uint8_t = false /\
  0 <= 255 < 2 ^ bits uint8_t /\
  0 <= 7 < bits uint8_t /\
  lshift 7 uint8_t 255 = Some ((255 * 2 ^ 7) mod 2 ^ bits uint8_t).
Proof.
  split; [reflexivity|]. split; [simpl; lia|]. split; [simpl; lia|].
  apply (lshift_unsigned_wraps uint8_t 255 7); [reflexivity | simpl; lia..].
Defined.

(** ** Binary floating formats *)

Lemma digits2_pos_log2 m : Z.pos (digits2_pos m) = Z.log2 (Z.pos m) + 1.
Proof.
  induction m as [m IH | m IH |]; simpl digits2_pos.
  - rewrite Pos2Z.inj_succ, IH, Pos2Z.inj_xI, Z.log2_succ_double; lia.
  - rewrite Pos2Z.inj_succ, IH, Pos2Z.inj_xO, Z.log2_double; lia.
  - reflexivity.
Qed.

Lemma bit_width_pos m : bit_width (Z.pos m) = Z.pos (digits2_pos m).
Proof. unfold bit_width. simpl. now rewrite digits2_pos_log2. Qed.

Lemma digits2_pos_le m k : Z.pos m < 2 ^ k -> Z.pos (digits2_pos m) <= k.
Proof.
  intros H. rewrite digits2_pos_log2.
  apply Z.log2_lt_pow2 in H; lia.
Qed.

Lemma digits2_pos_iter_xO m d :
  digits2_pos (Pos.iter xO m d) = (digits2_pos m + d)%positive.
Proof.
  induction d as [|d IH] using Pos.peano_ind.
  - simpl. now rewrite Pos.add_1_r.
  - rewrite Pos.iter_succ. simpl. now rewrite IH, Pos.add_succ_r.
Qed.

Lemma Zpos_iter_xO m d : Z.pos (Pos.iter xO m d) = Z.pos m * 2 ^ Z.pos d.
Proof.
  induction d as [|d IH] using Pos.peano_ind.
  - simpl. lia.
  - rewrite Pos.iter_succ, Pos2Z.inj_xO, IH, Pos2Z.inj_succ.
    rewrite Z.pow_succ_r by lia.
    ring.
Qed.

(** Moving the binary point of a mantissa leaves the value alone. *)
Lemma shl_align_spec mx ex ex' :
  ex' <= ex ->
  exists mz,
    shl_align mx ex ex' = (mz, ex') /\
    Z.pos mz = Z.pos mx * 2 ^ (ex - ex') /\
    Z.pos (digits2_pos mz) = Z.pos (digits2_pos mx) + (ex - ex').
Proof.
  intros Hle. unfold shl_align.
  destruct (ex' - ex) as [|d|d] eqn:E; try lia.
  - assert (ex' = ex) as -> by lia. exists mx.
    rewrite Z.sub_diag. repeat split; lia.
  - exists (Pos.iter xO mx d).
    replace (ex - ex') with (Z.pos d) by lia.
    rewrite Zpos_iter_xO, digits2_pos_iter_xO. repeat split; lia.
Qed.

Section Format.

Variables prec emax : Z.
Hypothesis prec_pos : 0 < prec.
Hypothesis prec_lt_emax : prec < emax.

(** A mantissa that already sits at its canonical exponent is not
    rounded. *)
Lemma binary_round_aux_canonical s mz ez :
  fexp prec emax (Z.pos (digits2_pos mz) + ez) = ez ->
  binary_round_aux prec emax s (Z.pos mz) ez loc_Exact =
  if ez <=? emax - prec then S754_finite s mz ez else S754_infinity s.
Proof.
  intros H. unfold binary_round_aux, shr_fexp. simpl Zdigits2.
  rewrite H, Z.sub_diag.
  cbn [SpecFloat.shr shr_record_of_loc shr_m loc_of_shr_record
       round_nearest_even Zdigits2].
  rewrite H, Z.sub_diag. reflexivity.
Qed.

(** [binary_round] on a mantissa of at most [prec] digits above the
    subnormal exponent: only the representation changes. *)
Lemma binary_round_exact s mx ex :
  Z.pos (digits2_pos mx) <= prec ->
  emin prec emax <= ex ->
  exists mz ez,
    ez = fexp prec emax (Z.pos (digits2_pos mx) + ex) /\
    Z.pos mz = Z.pos mx * 2 ^ (ex - ez) /\
    Z.pos (digits2_pos mz) = Z.pos (digits2_pos mx) + (ex - ez) /\
    binary_round prec emax s mx ex =
    if ez <=? emax - prec then S754_finite s mz ez else S754_infinity s.
Proof.
  intros Hd He. unfold binary_round.
  set (ez := fexp prec emax (Z.pos (digits2_pos mx) + ex)).
  assert (Hez : ez <= ex) by (unfold ez, fexp; lia).
  destruct (shl_align_spec mx ex ez Hez) as (mz & -> & Hm & Hdz).
  exists mz, ez. repeat split; try assumption.
  apply binary_round_aux_canonical. rewrite Hdz.
  now replace (Z.pos (digits2_pos mx) + (ex - ez) + ez)
    with (Z.pos (digits2_pos mx) + ex) by ring.
Qed.

(** A nonzero integer below [2^prec] converts exactly: the mantissa is
    the integer moved up to [prec] digits. *)
Lemma binary_normalize_integer n :
  n <> 0 -> Z.abs n < 2 ^ prec ->
  exists mz,
    binary_normalize prec emax n 0 false =
      S754_finite (n <? 0) mz (bit_width (Z.abs n) - prec) /\
    Z.pos mz = Z.abs n * 2 ^ (prec - bit_width (Z.abs n)) /\
    Z.pos (digits2_pos mz) = prec.
Proof.
  intros Hn Hlt.
  assert (Hgen : forall s p, Z.pos p < 2 ^ prec ->
    exists mz,
      binary_round prec emax s p 0 =
        S754_finite s mz (bit_width (Z.pos p) - prec) /\
      Z.pos mz = Z.pos p * 2 ^ (prec - bit_width (Z.pos p)) /\
      Z.pos (digits2_pos mz) = prec).
  { intros s p Hp. pose proof (digits2_pos_le p prec Hp) as Hd.
    destruct (binary_round_exact s p 0 Hd) as (mz & ez & Hez & Hm & Hdz & E).
    { unfold emin. lia. }
    assert (Hez' : ez = Z.pos (digits2_pos p) - prec)
      by (unfold fexp, emin in Hez; lia).
    exists mz. rewrite bit_width_pos, <- Hez'. repeat split.
    - rewrite E. now replace (ez <=? emax - prec) with true
        by (symmetry; apply Z.leb_le; lia).
    - rewrite Hm. f_equal. f_equal. lia.
    - lia. }
  destruct n as [|p|p]; [lia | |]; simpl binary_normalize; simpl Z.abs;
    now apply Hgen.
Qed.

(** On a full-width mantissa, away from underflow and overflow, [SFldexp]
    only moves the exponent. *)
Lemma SFldexp_normal s mz ez e :
  Z.pos (digits2_pos mz) = prec ->
  emin prec emax <= ez + e <= emax - prec ->
  SFldexp prec emax (S754_finite s mz ez) e = S754_finite s mz (ez + e).
Proof.
  intros Hd He. simpl SFldexp.
  destruct (binary_round_exact s mz (ez + e)) as (m' & e' & He' & Hm & _ & E);
    [lia.. |].
  assert (e' = ez + e) as -> by (unfold fexp in He'; lia).
  rewrite E. replace (ez + e <=? emax - prec) with true
    by (symmetry; apply Z.leb_le; lia).
  rewrite Z.sub_diag, Z.mul_1_r in Hm. now injection Hm as ->.
Qed.

End Format.

(** ** The value of a floating result *)

Lemma Qpower_2_plus a b : (2 ^ (a + b) == 2 ^ a * 2 ^ b)%Q.
Proof. apply Qpower_plus. discriminate. Qed.

Lemma represents_finite (s : bool) m e n k :
  (if s then Z.neg m else Z.pos m) = n * 2 ^ k -> 0 <= k ->
  represents (S754_finite s m e) (inject_Z n * 2 ^ (k + e)%Z)%Q.
Proof.
  intros H Hk. unfold represents, SF2Q. rewrite H.
  rewrite inject_Z_mult, Zpower_Qpower, Qpower_2_plus by assumption.
  change (inject_Z 2) with 2%Q. ring.
Qed.

Lemma signed_mantissa n m k :
  n <> 0 -> Z.pos m = Z.abs n * 2 ^ k ->
  (if n <? 0 then Z.neg m else Z.pos m) = n * 2 ^ k.
Proof.
  intros Hn H. destruct (Z.ltb_spec n 0).
  - rewrite <- Pos2Z.opp_pos, H, Z.abs_neq by lia. ring.
  - rewrite H, Z.abs_eq by lia. ring.
Qed.

(** ** The floating conversions *)

Lemma static_cast_int_fixed i :
  (static_cast_int i =? i) = true <-> - 2 ^ 31 <= i <= 2 ^ 31 - 1.
Proof.
  rewrite Z.eqb_eq. unfold static_cast_int. unfold_kind.
  split; intros H; Z.div_mod_to_equations; lia.
Qed.

Lemma exponent_guard_iff v :
  exponent_guard v = true <->
  - 2 ^ 31 <= shape.I (shape_of v) <= 2 ^ 31 - 1.
Proof. apply static_cast_int_fixed. Qed.

Lemma operator_double_Some v :
  - 2 ^ 31 <= shape.I (shape_of v) <= 2 ^ 31 - 1 ->
  operator_double v =
  Some (ldexp (static_cast_double (internal v)) (shape.I (shape_of v))).
Proof.
  intros H. apply exponent_guard_iff in H. unfold operator_double.
  rewrite H. unfold exponent_guard in H. apply Z.eqb_eq in H.
  now rewrite H.
Qed.

Lemma operator_double_None v :
  ~ (- 2 ^ 31 <= shape.I (shape_of v) <= 2 ^ 31 - 1) ->
  operator_double v = None.
Proof.
  intros H. unfold operator_double.
  destruct (exponent_guard v) eqn:E; [|reflexivity].
  now apply exponent_guard_iff in E.
Qed.

(** An integer of at most 53 bits, scaled inside the normal range, is
    converted without any rounding. *)
Lemma ldexp_static_cast_double m e :
  Z.abs m < 2 ^ 53 ->
  -1021 <= bit_width (Z.abs m) + e <= 1024 ->
  represents (ldexp (static_cast_double m) e) (inject_Z m * 2 ^ e)%Q.
Proof.
  intros Hm He. destruct (Z.eq_dec m 0) as [-> | Hnz].
  { unfold represents. simpl. ring. }
  destruct (binary_normalize_integer 53 1024 ltac:(lia) ltac:(lia) m Hnz Hm)
    as (mz & E & Hmz & Hd).
  unfold ldexp, static_cast_double. rewrite E.
  rewrite SFldexp_normal by (unfold emin; lia).
  assert (Hw : 1 <= bit_width (Z.abs m) <= 53).
  { destruct m as [|p|p]; try lia; simpl Z.abs in *;
      rewrite bit_width_pos; pose proof (digits2_pos_le p 53 Hm); lia. }
  replace e with ((53 - bit_width (Z.abs m))
                  + (bit_width (Z.abs m) - 53 + e))%Z at 2 by ring.
  apply represents_finite; [|lia].
  now apply signed_mantissa.
Qed.

(** C4: when the exponent [I] is a value of [int], the conversion to double
    is defined and is the load-exponent of the converted stored integer by
    [I]; for a stored integer of at most 53 bits and a result in the normal
    range that is exactly [m * 2^I].  Stored integer 3 with exponent -1
    gives 1.5, stored integer 1 with exponent 10 gives 1024. *)
Theorem operator_double_scaled v :
  - 2 ^ 31 <= shape.I (shape_of v) <= 2 ^ 31 - 1 ->
  let m := internal v in
  let e := shape.I (shape_of v) in
  operator_double v = Some (ldexp (static_cast_double m) e) /\
  (Z.abs m < 2 ^ 53 -> -1021 <= bit_width (Z.abs m) + e <= 1024 ->
   represents (ldexp (static_cast_double m) e) (inject_Z m * 2 ^ e)%Q) /\
  (exists d, operator_double (mk_t (shape.make 8 (-1) unsigned) 3) = Some d /\
             represents d (3 # 2)) /\
  (exists d, operator_double (mk_t (shape.make 8 10 unsigned) 1) = Some d /\
             represents d 1024%Q).
Proof.
  intros H m e. split; [now apply operator_double_Some|].
  split; [apply ldexp_static_cast_double|].
  split; eexists; (split; [vm_compute; reflexivity|]);
    vm_compute; reflexivity.
Qed.

Lemma operator_double_scaled_witness :
  - 2 ^ 31 <= -1 <= 2 ^ 31 - 1 /\
  operator_double (mk_t (shape.make 8 (-1) unsigned) 3) =
    Some (ldexp (static_cast_double 3) (-1)) /\
  represents (ldexp (static_cast_double 3) (-1)) (inject_Z 3 * 2 ^ (-1))%Q.
Proof.
  assert (H : - 2 ^ 31 <= -1 <= 2 ^ 31 - 1) by (split; discriminate).
  destruct (operator_double_scaled (mk_t (shape.make 8 (-1) unsigned) 3) H)
    as (E & Hex & _).
  split; [exact H|]. split; [exact E|].
  apply Hex; simpl; [reflexivity | split; discriminate].
Defined.

(** ** Literals *)

(** Whatever [std::abs] returns has a signed type. *)
Lemma std_abs_signed ty n a :
  std_abs ty n = Some a -> unsigned_integral (type_of a) = false.
Proof. destruct ty; simpl; intros [= <-]; reflexivity. Qed.

(** So [std::bit_width(std::abs(I))] has no viable overload. *)
Lemma bit_width_abs_rejected bt ty n :
  (a <- std_abs ty n ;; std_bit_width bt a) = None.
Proof.
  destruct (std_abs ty n) as [a|] eqn:E; [|reflexivity].
  simpl. unfold std_bit_width. now rewrite (std_abs_signed ty n a E).
Qed.

Lemma from_int_None CB W st bt ty n : from_int CB W st bt ty n = None.
Proof.
  unfold from_int. destruct (std_abs ty n) as [a|] eqn:E; [|reflexivity].
  simpl. unfold std_bit_width. now rewrite (std_abs_signed ty n a E).
Qed.

Lemma byte_pow2_ceil_at_type CB W st x r :
  byte_pow2_ceil_at CB W st x = Some r -> type_of r = st.
Proof.
  unfold byte_pow2_ceil_at. destruct (unsigned_integral (type_of x));
    [|discriminate].
  destruct (byte_pow2_ceil CB W (value_of x)); [|discriminate].
  now intros [= <-].
Qed.

(** [t] takes no exponent of an unsigned type ... *)
Lemma instantiate_t_unsigned_exponent b i s :
  unsigned_integral (type_of i) = true -> instantiate_t b i s = None.
Proof.
  intros H. unfold instantiate_t, signed_integral. rewrite H.
  now rewrite andb_false_r.
Qed.

(** ... and no width of a type other than [unsigned int]. *)
Lemma instantiate_t_width_type b i s :
  is_unsigned_int (type_of b) = false -> instantiate_t b i s = None.
Proof.
  intros H. unfold instantiate_t, int_b_at. rewrite H.
  now destruct (_ && _).
Qed.

(** C1: [from_int<n>] yields no value, for every constant [n] of every
    integer type on every host.  [std::bit_width] does not take the signed
    result of [std::abs]; the exponent argument, written as the width
    expression again, is a [std::size_t], which [t] does not take as its
    exponent; and where [std::size_t] is not [unsigned int], [t] does not
    take it as its width either. *)
Theorem from_int_ill_formed CB W st bt ty n :
  from_int CB W st bt ty n = None /\
  (a <- std_abs ty n ;; std_bit_width bt a) = None /\
  (forall x r b s,
     byte_pow2_ceil_at CB W st x = Some r ->
     unsigned_integral st = true ->
     instantiate_t b r s = None) /\
  (forall x r i s,
     byte_pow2_ceil_at CB W st x = Some r ->
     is_unsigned_int st = false ->
     instantiate_t r i s = None).
Proof.
  split; [apply from_int_None|]. split; [apply bit_width_abs_rejected|].
  split; intros x r c s Hr Hst; apply byte_pow2_ceil_at_type in Hr.
  - apply instantiate_t_unsigned_exponent. now rewrite Hr.
  - apply instantiate_t_width_type. now rewrite Hr.
Qed.

(** C2: no literal converts to double at all, since no literal exists:
    "literal exactness" fails for every constant on every host, [5]
    included. *)
Theorem literal_never_exact CB W st bt ty n :
  ~ literal_exact CB W st bt ty n.
Proof.
  intros (v & d & Hv & _). now rewrite from_int_None in Hv.
Qed.

(** A value written with exponent 0 and a stored integer of at most 53 bits
    does convert to exactly that integer ... *)
Lemma exponent_zero_exact v :
  shape.I (shape_of v) = 0 -> Z.abs (internal v) < 2 ^ 53 ->
  exists d, operator_double v = Some d /\
            represents d (inject_Z (internal v)).
Proof.
  intros HI Hm. rewrite operator_double_Some by (rewrite HI; lia).
  eexists. split; [reflexivity|]. rewrite HI.
  assert (Hw : 0 <= bit_width (Z.abs (internal v)) <= 53).
  { unfold bit_width. destruct (Z.eqb_spec (Z.abs (internal v)) 0); [lia|].
    pose proof (Z.log2_nonneg (Z.abs (internal v))).
    assert (Z.log2 (Z.abs (internal v)) < 53)
      by (apply Z.log2_lt_pow2; lia). lia. }
  pose proof (ldexp_static_cast_double (internal v) 0 Hm ltac:(lia)) as R.
  unfold represents in *. destruct (SF2Q _) as [q|]; [|exact R].
  rewrite R. simpl. ring.
Qed.

(** ... while the conversion of a wider stored integer loses its last
    bit. *)
Lemma static_cast_double_rounds :
  static_cast_double (2 ^ 53 + 1) = static_cast_double (2 ^ 53).
Proof. vm_compute. reflexivity. Qed.

(** ** Text *)

(** C5 (as stated) fails on a shape whose exponent is not an [int]. *)
Lemma text_not_unconditional : ~ text_unconditional.
Proof.
  intros H.
  destruct (H (fun _ => EmptyString)
              (mk_t (shape.make 8 (2 ^ 31) unsigned) 1) eq_refl) as [s Hs].
  vm_compute in Hs. discriminate.
Qed.

(** C5 (amended): with text support compiled in, the text conversion has no
    guard of its own and is the rendering of the double conversion, so it
    yields a string exactly for the shapes whose exponent is a value of
    [int]; then the string is [to_string] of the double conversion. *)
Theorem operator_string_via_double to_string v :
  operator_string None to_string v = option_map to_string (operator_double v) /\
  ((exists s, operator_string None to_string v = Some s) <->
   - 2 ^ 31 <= shape.I (shape_of v) <= 2 ^ 31 - 1) /\
  (forall s, operator_string None to_string v = Some s ->
             exists d, operator_double v = Some d /\ s = to_string d).
Proof.
  assert (E : operator_string None to_string v
              = option_map to_string (operator_double v)).
  { unfold operator_string. now destruct (operator_double v). }
  split; [exact E|]. rewrite E. split.
  - split.
    + intros [s Hs].
      destruct (Z_le_dec (- 2 ^ 31) (shape.I (shape_of v)));
        destruct (Z_le_dec (shape.I (shape_of v)) (2 ^ 31 - 1)); try lia;
        rewrite operator_double_None in Hs by lia; discriminate.
    + intros H. rewrite operator_double_Some by exact H. simpl. eauto.
  - intros s Hs. destruct (operator_double v) as [d|]; [|discriminate].
    injection Hs as <-. eauto.
Qed.

(** ** Further properties of the shifts and of the resolver *)

(** Shift direction symmetry: [rshift<k>] and [lshift<-k>] agree on every
    operand, and so do [lshift<k>] and [rshift<-k>]. *)
Theorem shift_symmetry T v k :
  rshift k T v = lshift (- k) T v /\ lshift k T v = rshift (- k) T v.
Proof.
  assert (H0 : builtin_shr T v 0 = builtin_shl T v 0).
  { unfold builtin_shr, builtin_shl.
    now rewrite Z.shiftr_0_r, Z.shiftl_0_r, wrap_promote. }
  unfold rshift, lshift.
  destruct (Z.ltb_spec k 0) as [Hk | Hk];
    destruct (Z.ltb_spec (- k) 0) as [Hk' | Hk']; try lia;
    rewrite ?Z.opp_involutive; try (split; reflexivity).
  assert (k = 0) as -> by lia. simpl. now rewrite H0.
Qed.

(** On a host with 8-bit bytes and a [std::size_t] of [W >= 4] bits,
    [byte_pow2_ceil] returns for every argument up to [2^(W-1)], and the
    result is not below the argument. *)
Theorem byte_pow2_ceil_returns W x :
  4 <= W -> x <= 2 ^ (W - 1) ->
  exists r, byte_pow2_ceil 8 W x = Some r /\ x <= r.
Proof. apply byte_pow2_ceil_terminates. Qed.

Lemma byte_pow2_ceil_returns_witness :
  4 <= 64 /\ 2 ^ 63 <= 2 ^ (64 - 1) /\
  exists r, byte_pow2_ceil 8 64 (2 ^ 63) = Some r /\ 2 ^ 63 <= r.
Proof.
  split; [lia|]. split; [reflexivity|].
  apply (byte_pow2_ceil_returns 64 (2 ^ 63)); [lia | reflexivity].
Defined.

(** * Further properties *)

(** ** [byte_pow2_ceil] over its whole range *)

(** Every result with 8-bit bytes is a candidate [2^(k+3)] that has not
    wrapped. *)
Lemma byte_pow2_ceil_result W x r :
  4 <= W -> byte_pow2_ceil 8 W x = Some r ->
  exists k, Z.of_nat k + 3 < W /\ r = 2 ^ (Z.of_nat k + 3) /\ x <= r /\
            forall j, (j < k)%nat -> 2 ^ (Z.of_nat j + 3) < x.
Proof.
  intros HW H. unfold byte_pow2_ceil in H. apply loop_Some in H.
  destruct H as (k & Hk & Hr & Hx & Hlt).
  assert (Hlt' : forall j, (j < k)%nat -> Z.of_nat j + 3 < W ->
                           2 ^ (Z.of_nat j + 3) < x).
  { intros j Hj HjW. specialize (Hlt j Hj).
    now rewrite candidate_8 in Hlt by lia. }
  destruct (Z.lt_ge_cases (Z.of_nat k + 3) W) as [HkW | HkW].
  - exists k. rewrite candidate_8 in Hr by lia.
    repeat split; try assumption. intros j Hj. apply Hlt'; lia.
  - exfalso. rewrite candidate_8_wrapped in Hr by lia. subst r.
    assert (Hk0 : (0 < k)%nat) by lia.
    specialize (Hlt' 0%nat Hk0 ltac:(lia)). simpl in Hlt'. lia.
Qed.

(** The result of [byte_pow2_ceil], whenever there is one, is the least
    power of two that is at least 8 and at least the argument. *)
Theorem byte_pow2_ceil_least_power W x r :
  4 <= W -> byte_pow2_ceil 8 W x = Some r ->
  (exists e, 3 <= e < W /\ r = 2 ^ e) /\
  x <= r /\
  forall e, 3 <= e -> x <= 2 ^ e -> r <= 2 ^ e.
Proof.
  intros HW H.
  destruct (byte_pow2_ceil_result W x r HW H) as (k & HkW & -> & Hx & Hlt).
  split; [exists (Z.of_nat k + 3); split; [lia | reflexivity]|].
  split; [exact Hx|].
  intros e He Hxe. apply Z.pow_le_mono_r; [lia|].
  destruct (Z.le_gt_cases (Z.of_nat k + 3) e) as [Hle | Hgt]; [exact Hle|].
  exfalso. specialize (Hlt (Z.to_nat (e - 3)) ltac:(lia)).
  replace (Z.of_nat (Z.to_nat (e - 3)) + 3) with e in Hlt by lia. lia.
Qed.

Lemma byte_pow2_ceil_least_power_witness :
  4 <= 64 /\ byte_pow2_ceil 8 64 100 = Some 128 /\
  (exists e, 3 <= e < 64 /\ 128 = 2 ^ e) /\
  100 <= 128 /\
  forall e, 3 <= e -> 100 <= 2 ^ e -> 128 <= 2 ^ e.
Proof.
  assert (HW : 4 <= 64) by discriminate.
  assert (E : byte_pow2_ceil 8 64 100 = Some 128) by (vm_compute; reflexivity).
  split; [exact HW|]. split; [exact E|].
  exact (byte_pow2_ceil_least_power 64 100 128 HW E).
Defined.

(** A result of [byte_pow2_ceil] is a fixed point: resolving it again
    returns it unchanged. *)
Theorem byte_pow2_ceil_idempotent W x r :
  4 <= W -> byte_pow2_ceil 8 W x = Some r -> byte_pow2_ceil 8 W r = Some r.
Proof.
  intros HW H.
  destruct (byte_pow2_ceil_result W x r HW H) as (k & HkW & -> & _ & _).
  apply byte_pow2_ceil_first; try lia.
  intros j Hj. apply Z.pow_lt_mono_r; lia.
Qed.

Lemma byte_pow2_ceil_idempotent_witness :
  4 <= 64 /\ byte_pow2_ceil 8 64 100 = Some 128 /\
  byte_pow2_ceil 8 64 128 = Some 128.
Proof.
  assert (HW : 4 <= 64) by discriminate.
  assert (E : byte_pow2_ceil 8 64 100 = Some 128) by (vm_compute; reflexivity).
  split; [exact HW|]. split; [exact E|].
  exact (byte_pow2_ceil_idempotent 64 100 128 HW E).
Defined.

(** [byte_pow2_ceil] is monotone wherever it returns. *)
Theorem byte_pow2_ceil_monotone W x y rx ry :
  4 <= W -> x <= y ->
  byte_pow2_ceil 8 W x = Some rx -> byte_pow2_ceil 8 W y = Some ry ->
  rx <= ry.
Proof.
  intros HW Hxy Hx Hy.
  destruct (byte_pow2_ceil_result W x rx HW Hx) as (kx & _ & -> & _ & Hltx).
  destruct (byte_pow2_ceil_result W y ry HW Hy) as (ky & _ & -> & Hley & _).
  apply Z.pow_le_mono_r; [lia|].
  destruct (Nat.le_gt_cases kx ky) as [Hk | Hk]; [lia|].
  specialize (Hltx ky Hk). lia.
Qed.

Lemma byte_pow2_ceil_monotone_witness :
  4 <= 64 /\ 9 <= 100 /\
  byte_pow2_ceil 8 64 9 = Some 16 /\ byte_pow2_ceil 8 64 100 = Some 128 /\
  16 <= 128.
Proof.
  assert (HW : 4 <= 64) by discriminate.
  assert (Hxy : 9 <= 100) by discriminate.
  assert (Ex : byte_pow2_ceil 8 64 9 = Some 16) by (vm_compute; reflexivity).
  assert (Ey : byte_pow2_ceil 8 64 100 = Some 128) by (vm_compute; reflexivity).
  split; [exact HW|]. split; [exact Hxy|]. split; [exact Ex|].
  split; [exact Ey|].
  exact (byte_pow2_ceil_monotone 64 9 100 16 128 HW Hxy Ex Ey).
Defined.

(** ** Round trips and composition of the shifts *)

Lemma wrap_mod T z : wrap T z mod 2 ^ bits T = z mod 2 ^ bits T.
Proof. destruct T; unfold_kind; Z.div_mod_to_equations; lia. Qed.

Lemma wrap_congruent T a b :
  a mod 2 ^ bits T = b mod 2 ^ bits T -> wrap T a = wrap T b.
Proof.
  destruct T; unfold_kind; intros H; Z.div_mod_to_equations; lia.
Qed.

Lemma wrap_mul_l T a b : wrap T (wrap T a * b) = wrap T (a * b).
Proof.
  apply wrap_congruent.
  assert (HM : 2 ^ bits T <> 0)
    by (apply Z.pow_nonzero; destruct T; simpl; lia).
  rewrite (Z.mul_mod (wrap T a)), wrap_mod, <- Z.mul_mod by exact HM.
  reflexivity.
Qed.

Lemma bits_promote_pos T : 0 < bits (promote T).
Proof. pose proof (bits_promote T). pose proof (bits_pos T). lia. Qed.

Lemma div_pow2_in_range T v k :
  0 <= k -> in_range T v = true -> in_range T (v / 2 ^ k) = true.
Proof.
  intros Hk Hv. rewrite <- Z.shiftr_div_pow2 by exact Hk.
  now apply shiftr_in_range.
Qed.

(** Shift round trip, right then left: when the [k] low bits of [v] are
    clear, [lshift<k>(rshift<k>(v))] is [v] again. *)
Theorem lshift_rshift_round_trip T v k :
  in_range T v = true ->
  0 <= k < bits (promote T) ->
  v mod 2 ^ k = 0 ->
  (r <- rshift k T v ;; lshift k T r) = Some v.
Proof.
  intros Hv Hk Hlow.
  assert (Hp : 0 < 2 ^ k) by (apply Z.pow_pos_nonneg; lia).
  unfold rshift, lshift.
  destruct (Z.ltb_spec k 0) as [Hneg | _]; [lia|].
  rewrite builtin_shr_defined by assumption. simpl.
  rewrite builtin_shl_defined by assumption.
  replace (v / 2 ^ k * 2 ^ k) with v.
  - now rewrite wrap_in_range.
  - rewrite (Z.div_mod v (2 ^ k)) at 1 by lia. rewrite Hlow. ring.
Qed.

Lemma lshift_rshift_round_trip_witness :
  in_range int8_t (-96) = true /\
  0 <= 5 < bits (promote int8_t) /\
  (-96) mod 2 ^ 5 = 0 /\
  (r <- rshift 5 int8_t (-96) ;; lshift 5 int8_t r) = Some (-96).
Proof.
  assert (Hk : 0 <= 5 < bits (promote int8_t))
    by (split; [discriminate | reflexivity]).
  split; [reflexivity|]. split; [exact Hk|]. split; [reflexivity|].
  exact (lshift_rshift_round_trip int8_t (-96) 5 eq_refl Hk eq_refl).
Defined.

(** Shift round trip, left then right: when [v * 2^k] still fits the
    operand's kind, [rshift<k>(lshift<k>(v))] is [v] again. *)
Theorem rshift_lshift_round_trip T v k :
  in_range T v = true ->
  0 <= k < bits (promote T) ->
  in_range T (v * 2 ^ k) = true ->
  (l <- lshift k T v ;; rshift k T l) = Some v.
Proof.
  intros Hv Hk Hfit.
  assert (Hp : 0 < 2 ^ k) by (apply Z.pow_pos_nonneg; lia).
  unfold rshift, lshift.
  destruct (Z.ltb_spec k 0) as [Hneg | _]; [lia|].
  rewrite builtin_shl_defined by assumption. simpl.
  rewrite wrap_in_range by exact Hfit.
  rewrite builtin_shr_defined by assumption.
  now rewrite Z.div_mul by lia.
Qed.

Lemma rshift_lshift_round_trip_witness :
  in_range uint8_t 5 = true /\
  0 <= 5 < bits (promote uint8_t) /\
  in_range uint8_t (5 * 2 ^ 5) = true /\
  (l <- lshift 5 uint8_t 5 ;; rshift 5 uint8_t l) = Some 5.
Proof.
  assert (Hk : 0 <= 5 < bits (promote uint8_t))
    by (split; [discriminate | reflexivity]).
  split; [reflexivity|]. split; [exact Hk|]. split; [reflexivity|].
  exact (rshift_lshift_round_trip uint8_t 5 5 eq_refl Hk eq_refl).
Defined.

(** Two left shifts compose into one by the sum of the amounts, and so do
    two right shifts, as long as the sum stays below the promoted width. *)
Theorem shift_compose T v j k :
  in_range T v = true ->
  0 <= j -> 0 <= k -> j + k < bits (promote T) ->
  (l <- lshift k T v ;; lshift j T l) = lshift (j + k) T v /\
  (r <- rshift k T v ;; rshift j T r) = rshift (j + k) T v.
Proof.
  intros Hv Hj Hk Hjk. unfold rshift, lshift.
  destruct (Z.ltb_spec k 0) as [Hneg | _]; [lia|].
  destruct (Z.ltb_spec j 0) as [Hneg | _]; [lia|].
  destruct (Z.ltb_spec (j + k) 0) as [Hneg | _]; [lia|].
  split.
  - rewrite !builtin_shl_defined by lia. simpl.
    rewrite builtin_shl_defined by lia.
    rewrite wrap_mul_l, Z.pow_add_r by lia.
    do 2 f_equal. ring.
  - rewrite !builtin_shr_defined by (trivial; lia). simpl.
    rewrite builtin_shr_defined
      by (try apply div_pow2_in_range; trivial; lia).
    rewrite Z.div_div by (try apply Z.pow_pos_nonneg; lia).
    rewrite (Z.add_comm j k), Z.pow_add_r by lia. reflexivity.
Qed.

Lemma shift_compose_witness :
  in_range uint8_t 3 = true /\
  0 <= 2 /\ 0 <= 3 /\ 2 + 3 < bits (promote uint8_t) /\
  (l <- lshift 3 uint8_t 3 ;; lshift 2 uint8_t l) = lshift (2 + 3) uint8_t 3 /\
  (r <- rshift 3 uint8_t 3 ;; rshift 2 uint8_t r) = rshift (2 + 3) uint8_t 3.
Proof.
  split; [reflexivity|]. split; [discriminate|]. split; [discriminate|].
  split; [reflexivity|].
  apply (shift_compose uint8_t 3 2 3); first [reflexivity | discriminate].
Defined.

(** A right shift is arithmetic: it keeps the sign of the operand, does not
    move it away from zero, and clears an operand below [2^k]. *)
Theorem rshift_toward_zero T v k :
  in_range T v = true ->
  0 <= k < bits (promote T) ->
  exists r,
    rshift k T v = Some r /\
    (0 <= v -> 0 <= r <= v) /\
    (v < 0 -> v <= r < 0) /\
    (0 <= v < 2 ^ k -> r = 0).
Proof.
  intros Hv Hk.
  assert (Hp : 0 < 2 ^ k) by (apply Z.pow_pos_nonneg; lia).
  exists (v / 2 ^ k). unfold rshift.
  destruct (Z.ltb_spec k 0) as [Hneg | _]; [lia|].
  rewrite builtin_shr_defined by assumption.
  split; [reflexivity|]. split; [|split].
  - intros H0. split; [now apply Z.div_pos|].
    apply Z.div_le_upper_bound; [exact Hp | nia].
  - intros Hn. split.
    + apply Z.div_le_lower_bound; [exact Hp | nia].
    + apply Z.div_lt_upper_bound; [exact Hp | lia].
  - intros H. now apply Z.div_small.
Qed.

Lemma rshift_toward_zero_witness :
  in_range int8_t (-1) = true /\
  0 <= 3 < bits (promote int8_t) /\
  exists r,
    rshift 3 int8_t (-1) = Some r /\
    (0 <= -1 -> 0 <= r <= -1) /\
    (-1 < 0 -> -1 <= r < 0) /\
    (0 <= -1 < 2 ^ 3 -> r = 0).
Proof.
  assert (Hk : 0 <= 3 < bits (promote int8_t))
    by (split; [discriminate | reflexivity]).
  split; [reflexivity|]. split; [exact Hk|].
  exact (rshift_toward_zero int8_t (-1) 3 eq_refl Hk).
Defined.

(** ** The floating conversions beyond the exact double case *)

Section AnyFormat.

Variables prec emax : Z.
Hypothesis prec_pos : 0 < prec.
Hypothesis prec_lt_emax : prec < emax.

Lemma bit_width_bounds n :
  n <> 0 -> Z.abs n < 2 ^ prec -> 1 <= bit_width (Z.abs n) <= prec.
Proof.
  intros Hn Hlt. destruct n as [|p|p]; try lia; simpl Z.abs in *;
    rewrite bit_width_pos; pose proof (digits2_pos_le p prec Hlt); lia.
Qed.

(** An integer below [2^prec], scaled into the normal range of the format,
    is converted without rounding. *)
Lemma SFldexp_integer_exact m e :
  Z.abs m < 2 ^ prec ->
  3 - emax <= bit_width (Z.abs m) + e <= emax ->
  represents (SFldexp prec emax (binary_normalize prec emax m 0 false) e)
    (inject_Z m * 2 ^ e)%Q.
Proof using prec_pos prec_lt_emax.
  intros Hm He. destruct (Z.eq_dec m 0) as [-> | Hnz].
  { unfold represents. simpl. ring. }
  destruct (binary_normalize_integer prec emax prec_pos prec_lt_emax m Hnz Hm)
    as (mz & E & Hmz & Hd).
  pose proof (bit_width_bounds m Hnz Hm) as Hw.
  rewrite E, SFldexp_normal by (unfold emin; lia).
  replace e with ((prec - bit_width (Z.abs m))
                  + (bit_width (Z.abs m) - prec + e))%Z at 2 by ring.
  apply represents_finite; [|lia].
  now apply signed_mantissa.
Qed.

(** Above the normal range the same conversion overflows to the infinity
    of the integer's sign. *)
Lemma SFldexp_integer_overflow m e :
  m <> 0 -> Z.abs m < 2 ^ prec ->
  emax < bit_width (Z.abs m) + e ->
  SFldexp prec emax (binary_normalize prec emax m 0 false) e =
  S754_infinity (m <? 0).
Proof using prec_pos prec_lt_emax.
  intros Hnz Hm He.
  destruct (binary_normalize_integer prec emax prec_pos prec_lt_emax m Hnz Hm)
    as (mz & E & Hmz & Hd).
  pose proof (bit_width_bounds m Hnz Hm) as Hw.
  rewrite E. simpl SFldexp.
  destruct (binary_round_exact prec emax (m <? 0) mz
              (bit_width (Z.abs m) - prec + e)) as (m' & e' & He' & _ & _ & R);
    [lia | unfold emin; lia |].
  assert (e' = bit_width (Z.abs m) - prec + e) as ->
    by (unfold fexp, emin in He'; lia).
  rewrite R. destruct (Z.leb_spec (bit_width (Z.abs m) - prec + e)
                         (emax - prec)); [lia | reflexivity].
Qed.

(** The sign given to the rounding functions only ends up as the sign of
    the result. *)
Lemma binary_round_aux_opp s m e l :
  binary_round_aux prec emax (negb s) m e l =
  SFopp (binary_round_aux prec emax s m e l).
Proof.
  unfold binary_round_aux.
  destruct (shr_fexp prec emax m e l) as [mrs' e'].
  destruct (shr_fexp prec emax _ e' loc_Exact) as [mrs'' e''].
  destruct (shr_m mrs''); simpl; try reflexivity.
  now destruct (e'' <=? emax - prec).
Qed.

Lemma binary_round_opp s m e :
  binary_round prec emax (negb s) m e = SFopp (binary_round prec emax s m e).
Proof.
  unfold binary_round. destruct (shl_align m e _) as [mz ez].
  apply binary_round_aux_opp.
Qed.

Lemma SFldexp_opp x e :
  SFldexp prec emax (SFopp x) e = SFopp (SFldexp prec emax x e).
Proof. destruct x; simpl; try reflexivity. apply binary_round_opp. Qed.

Lemma binary_normalize_opp m :
  m <> 0 ->
  binary_normalize prec emax (- m) 0 false =
  SFopp (binary_normalize prec emax m 0 false).
Proof.
  intros Hm. destruct m as [|p|p]; [lia | |]; simpl.
  - apply (binary_round_opp false).
  - apply (binary_round_opp true).
Qed.

(** Rounding a mantissa that is not negative never produces a NaN. *)
Lemma shr_1_nonneg mrs : 0 <= shr_m mrs -> 0 <= shr_m (shr_1 mrs).
Proof.
  destruct mrs as [m r s]. simpl.
  destruct m as [|p|p]; [| destruct p | lia]; simpl; lia.
Qed.

Lemma iter_pos_shr_1_nonneg p mrs :
  0 <= shr_m mrs -> 0 <= shr_m (iter_pos shr_1 p mrs).
Proof.
  revert mrs. induction p as [p IH | p IH |]; intros mrs H; simpl.
  - apply IH, IH, shr_1_nonneg, H.
  - apply IH, IH, H.
  - apply shr_1_nonneg, H.
Qed.

Lemma shr_fexp_nonneg m e l :
  0 <= m -> 0 <= shr_m (fst (shr_fexp prec emax m e l)).
Proof.
  intros Hm. unfold shr_fexp, SpecFloat.shr.
  assert (H0 : 0 <= shr_m (shr_record_of_loc m l)).
  { destruct l as [|c]; [|destruct c]; exact Hm. }
  destruct (fexp prec emax (Zdigits2 m + e) - e); simpl; try exact H0.
  now apply iter_pos_shr_1_nonneg.
Qed.

Lemma round_nearest_even_nonneg m l : 0 <= m -> 0 <= round_nearest_even m l.
Proof.
  intros Hm. destruct l as [|c]; [|destruct c]; simpl; try lia.
  destruct (Z.even m); lia.
Qed.

Lemma binary_round_aux_not_nan s m e l :
  0 <= m -> binary_round_aux prec emax s m e l <> S754_nan.
Proof.
  intros Hm. unfold binary_round_aux.
  pose proof (shr_fexp_nonneg m e l Hm) as H1.
  destruct (shr_fexp prec emax m e l) as [mrs' e']. simpl in H1.
  pose proof (round_nearest_even_nonneg _ (loc_of_shr_record mrs') H1) as Hr.
  pose proof (shr_fexp_nonneg _ e' loc_Exact Hr) as H2.
  destruct (shr_fexp prec emax _ e' loc_Exact) as [mrs'' e'']. simpl in H2.
  destruct (shr_m mrs''); try discriminate; [|lia].
  destruct (e'' <=? emax - prec); discriminate.
Qed.

Lemma binary_round_not_nan s m e : binary_round prec emax s m e <> S754_nan.
Proof.
  unfold binary_round. destruct (shl_align m e _) as [mz ez].
  apply binary_round_aux_not_nan. lia.
Qed.

Lemma SFldexp_integer_not_nan m e :
  SFldexp prec emax (binary_normalize prec emax m 0 false) e <> S754_nan.
Proof.
  assert (H : forall x, x <> S754_nan -> SFldexp prec emax x e <> S754_nan).
  { intros x Hx. destruct x; simpl; try assumption.
    apply binary_round_not_nan. }
  apply H. destruct m; simpl; try discriminate; apply binary_round_not_nan.
Qed.

End AnyFormat.

(** ** What the conversions of a value return *)

Lemma operator_float_Some v :
  - 2 ^ 31 <= shape.I (shape_of v) <= 2 ^ 31 - 1 ->
  operator_float v =
  Some (ldexpf (static_cast_float (internal v)) (shape.I (shape_of v))).
Proof.
  intros H. apply exponent_guard_iff in H. unfold operator_float.
  rewrite H. unfold exponent_guard in H. apply Z.eqb_eq in H.
  now rewrite H.
Qed.

Lemma bit_width_nonneg x : 0 <= bit_width x.
Proof.
  unfold bit_width. destruct (x =? 0); [lia|].
  pose proof (Z.log2_nonneg x). lia.
Qed.

Lemma bit_width_le x k : 0 <= k -> 0 <= x < 2 ^ k -> bit_width x <= k.
Proof.
  intros Hk Hx. unfold bit_width. destruct (Z.eqb_spec x 0); [lia|].
  assert (Z.log2 x < k) by (apply Z.log2_lt_pow2; lia). lia.
Qed.

Lemma pow2_bit_width x : 0 <= x -> x < 2 ^ bit_width x.
Proof.
  intros Hx. unfold bit_width. destruct (Z.eqb_spec x 0) as [-> | Hnz].
  - reflexivity.
  - replace (Z.log2 x + 1) with (Z.succ (Z.log2 x)) by lia.
    apply Z.log2_spec. lia.
Qed.

(** The stored integer of a value is below [2^B] in magnitude. *)
Lemma well_formed_bound v :
  well_formed v = true ->
  ladder (shape.B (shape_of v)) /\
  Z.abs (internal v) < 2 ^ shape.B (shape_of v).
Proof.
  unfold well_formed.
  destruct (int_b _ _) as [T|] eqn:E; [|discriminate].
  apply int_b_Some in E. destruct E as (HL & HB & _). rewrite <- HB.
  rewrite in_range_bounds. split; [now rewrite HB|].
  revert H. destruct T; unfold_kind; simpl; lia.
Qed.

(** Conversion consistency: for a stored integer of at most 24 bits whose
    scaled value lies in the normal range of [float], both conversions are
    defined and stand for the same number, exactly [m * 2^I]. *)
Theorem conversions_agree v :
  - 2 ^ 31 <= shape.I (shape_of v) <= 2 ^ 31 - 1 ->
  Z.abs (internal v) < 2 ^ 24 ->
  -125 <= bit_width (Z.abs (internal v)) + shape.I (shape_of v) <= 128 ->
  exists f d,
    operator_float v = Some f /\ operator_double v = Some d /\
    represents f (inject_Z (internal v) * 2 ^ shape.I (shape_of v))%Q /\
    represents d (inject_Z (internal v) * 2 ^ shape.I (shape_of v))%Q.
Proof.
  intros HI Hm He.
  rewrite operator_float_Some, operator_double_Some by exact HI.
  do 2 eexists. split; [reflexivity|]. split; [reflexivity|]. split.
  - apply (SFldexp_integer_exact 24 128); lia.
  - apply (SFldexp_integer_exact 53 1024); lia.
Qed.

Lemma conversions_agree_witness :
  - 2 ^ 31 <= -1 <= 2 ^ 31 - 1 /\
  Z.abs 3 < 2 ^ 24 /\
  -125 <= bit_width (Z.abs 3) + -1 <= 128 /\
  exists f d,
    operator_float (mk_t (shape.make 8 (-1) unsigned) 3) = Some f /\
    operator_double (mk_t (shape.make 8 (-1) unsigned) 3) = Some d /\
    represents f (inject_Z 3 * 2 ^ (-1))%Q /\
    represents d (inject_Z 3 * 2 ^ (-1))%Q.
Proof.
  assert (HI : - 2 ^ 31 <= -1 <= 2 ^ 31 - 1)
    by (split; discriminate).
  assert (Hm : Z.abs 3 < 2 ^ 24) by reflexivity.
  assert (He : -125 <= bit_width (Z.abs 3) + -1 <= 128)
    by (split; discriminate).
  split; [exact HI|]. split; [exact Hm|]. split; [exact He|].
  exact (conversions_agree (mk_t (shape.make 8 (-1) unsigned) 3) HI Hm He).
Defined.

(** A value stored in 8, 16 or 32 bits converts to double exactly for every
    exponent from -1021 to 992. *)
Theorem operator_double_exact_32 v :
  well_formed v = true ->
  shape.B (shape_of v) <= 32 ->
  -1021 <= shape.I (shape_of v) <= 992 ->
  exists d,
    operator_double v = Some d /\
    represents d (inject_Z (internal v) * 2 ^ shape.I (shape_of v))%Q.
Proof.
  intros Hwf HB HI. apply well_formed_bound in Hwf.
  destruct Hwf as (HL & Hm).
  assert (H32 : Z.abs (internal v) < 2 ^ 32).
  { apply Z.lt_le_trans with (1 := Hm). apply Z.pow_le_mono_r; lia. }
  pose proof (bit_width_nonneg (Z.abs (internal v))).
  pose proof (bit_width_le (Z.abs (internal v)) 32 ltac:(lia) ltac:(lia)).
  rewrite operator_double_Some by lia.
  eexists. split; [reflexivity|].
  apply (SFldexp_integer_exact 53 1024); lia.
Qed.

Lemma operator_double_exact_32_witness :
  well_formed (mk_t (shape.make 32 (-16) signed) (-98304)) = true /\
  32 <= 32 /\ -1021 <= -16 <= 992 /\
  exists d,
    operator_double (mk_t (shape.make 32 (-16) signed) (-98304)) = Some d /\
    represents d (inject_Z (-98304) * 2 ^ (-16))%Q.
Proof.
  assert (HI : -1021 <= -16 <= 992) by (split; discriminate).
  split; [reflexivity|]. split; [discriminate|]. split; [exact HI|].
  apply (operator_double_exact_32 (mk_t (shape.make 32 (-16) signed) (-98304)));
    [reflexivity | discriminate | exact HI].
Defined.

(** A value stored in 8 or 16 bits converts to float exactly for every
    exponent from -125 to 112. *)
Theorem operator_float_exact_16 v :
  well_formed v = true ->
  shape.B (shape_of v) <= 16 ->
  -125 <= shape.I (shape_of v) <= 112 ->
  exists f,
    operator_float v = Some f /\
    represents f (inject_Z (internal v) * 2 ^ shape.I (shape_of v))%Q.
Proof.
  intros Hwf HB HI. apply well_formed_bound in Hwf.
  destruct Hwf as (HL & Hm).
  assert (H16 : Z.abs (internal v) < 2 ^ 16).
  { apply Z.lt_le_trans with (1 := Hm). apply Z.pow_le_mono_r; lia. }
  pose proof (bit_width_nonneg (Z.abs (internal v))).
  pose proof (bit_width_le (Z.abs (internal v)) 16 ltac:(lia) ltac:(lia)).
  rewrite operator_float_Some by lia.
  eexists. split; [reflexivity|].
  apply (SFldexp_integer_exact 24 128); lia.
Qed.

Lemma operator_float_exact_16_witness :
  well_formed (mk_t (shape.make 16 (-8) unsigned) 65535) = true /\
  16 <= 16 /\ -125 <= -8 <= 112 /\
  exists f,
    operator_float (mk_t (shape.make 16 (-8) unsigned) 65535) = Some f /\
    represents f (inject_Z 65535 * 2 ^ (-8))%Q.
Proof.
  assert (HI : -125 <= -8 <= 112) by (split; discriminate).
  split; [reflexivity|]. split; [discriminate|]. split; [exact HI|].
  apply (operator_float_exact_16 (mk_t (shape.make 16 (-8) unsigned) 65535));
    [reflexivity | discriminate | exact HI].
Defined.

(** Overflow and zero: a stored 0 converts to +0 whatever the exponent, and
    a nonzero stored integer of at most 53 bits whose scaled value is
    [2^1024] or more converts to the infinity of its sign. *)
Theorem operator_double_overflow v :
  - 2 ^ 31 <= shape.I (shape_of v) <= 2 ^ 31 - 1 ->
  (internal v = 0 -> operator_double v = Some (S754_zero false)) /\
  (internal v <> 0 -> Z.abs (internal v) < 2 ^ 53 ->
   1024 < bit_width (Z.abs (internal v)) + shape.I (shape_of v) ->
   operator_double v = Some (S754_infinity (internal v <? 0))).
Proof.
  intros HI. rewrite operator_double_Some by exact HI. split.
  - intros ->. reflexivity.
  - intros Hnz Hm He. f_equal.
    apply (SFldexp_integer_overflow 53 1024); lia.
Qed.

Lemma operator_double_overflow_witness :
  - 2 ^ 31 <= 1024 <= 2 ^ 31 - 1 /\
  operator_double (mk_t (shape.make 8 1024 signed) (-1))
  = Some (S754_infinity true).
Proof.
  assert (HI : - 2 ^ 31 <= 1024 <= 2 ^ 31 - 1) by (split; discriminate).
  split; [exact HI|].
  apply (operator_double_overflow (mk_t (shape.make 8 1024 signed) (-1)) HI);
    [discriminate | reflexivity | reflexivity].
Defined.

(** Negating a nonzero stored integer negates both conversions. *)
Theorem conversion_negation sh m :
  m <> 0 ->
  operator_double (mk_t sh (- m)) =
    option_map SFopp (operator_double (mk_t sh m)) /\
  operator_float (mk_t sh (- m)) =
    option_map SFopp (operator_float (mk_t sh m)).
Proof.
  intros Hm. unfold operator_double, operator_float, exponent_guard. simpl.
  destruct (static_cast_int (shape.I sh) =? shape.I sh); [|split; reflexivity].
  unfold ldexp, ldexpf, static_cast_double, static_cast_float. simpl.
  now rewrite !binary_normalize_opp, !SFldexp_opp.
Qed.

Lemma conversion_negation_witness :
  3 <> 0 /\
  operator_double (mk_t (shape.make 8 (-1) signed) (- 3)) =
    option_map SFopp (operator_double (mk_t (shape.make 8 (-1) signed) 3)) /\
  operator_float (mk_t (shape.make 8 (-1) signed) (- 3)) =
    option_map SFopp (operator_float (mk_t (shape.make 8 (-1) signed) 3)).
Proof.
  assert (H : 3 <> 0) by discriminate.
  split; [exact H|].
  exact (conversion_negation (shape.make 8 (-1) signed) 3 H).
Defined.

(** No conversion returns a NaN, whatever the stored integer and the
    exponent. *)
Theorem conversion_never_nan v :
  operator_double v <> Some S754_nan /\ operator_float v <> Some S754_nan.
Proof.
  unfold operator_double, operator_float.
  destruct (exponent_guard v); [|split; discriminate].
  split; intros [= H]; revert H; apply SFldexp_integer_not_nan.
Qed.

(** ** Text overloads *)

Lemma append_assoc (a b c : string) :
  ((a ++ b) ++ c = a ++ (b ++ c))%string.
Proof. induction a as [|ch a IH]; simpl; [reflexivity | now rewrite IH]. Qed.

Lemma operator_string_Some cfg to_string v r :
  operator_string cfg to_string v = Some r <->
  cfg = None /\ exists d, operator_double v = Some d /\ r = to_string d.
Proof.
  unfold operator_string. destruct cfg as [z|].
  - split; [discriminate | intros [H _]; discriminate].
  - destruct (operator_double v) as [d|]; simpl.
    + split.
      * intros [= <-]. eauto.
      * intros (_ & d' & [= <-] & ->). reflexivity.
    + split; [discriminate | intros (_ & d' & H & _); discriminate].
Qed.

(** Every text overload yields a result exactly when text support is
    compiled in and the exponent of the value is a value of [int]; with
    [FP_NOSTR] defined, or for another exponent, none of them does. *)
Theorem text_overloads_defined_iff cfg to_string s v :
  let usable :=
    cfg = None /\ - 2 ^ 31 <= shape.I (shape_of v) <= 2 ^ 31 - 1 in
  ((exists r, plus_string_t cfg to_string s v = Some r) <-> usable) /\
  ((exists r, plus_t_string cfg to_string v s = Some r) <-> usable) /\
  ((exists r, stream_insert cfg to_string s v = Some r) <-> usable).
Proof.
  intros usable.
  assert (H : (exists r, operator_string cfg to_string v = Some r) <-> usable).
  { unfold usable. split.
    - intros [r Hr]. apply operator_string_Some in Hr.
      destruct Hr as (-> & d & Hd & _). split; [reflexivity|].
      destruct (Z_le_dec (- 2 ^ 31) (shape.I (shape_of v)));
        destruct (Z_le_dec (shape.I (shape_of v)) (2 ^ 31 - 1)); try lia;
        rewrite operator_double_None in Hd by lia; discriminate.
    - intros [-> HI]. eexists. apply operator_string_Some.
      split; [reflexivity|]. eexists. split; [|reflexivity].
      now apply operator_double_Some. }
  assert (G : forall f : string -> string,
             (exists r, (x <- operator_string cfg to_string v ;; Some (f x))
                        = Some r) <-> usable).
  { intros f. rewrite <- H.
    destruct (operator_string cfg to_string v) as [r|]; simpl.
    - split; eauto.
    - split; intros [r Hr]; discriminate. }
  unfold plus_string_t, plus_t_string, stream_insert.
  split; [apply (G (fun x => (s ++ x)%string))|].
  split; [apply (G (fun x => (x ++ s)%string))|].
  apply (G (fun x => (s ++ x)%string)).
Qed.

(** The overloads compose as concatenation does.  With [r] and [r'] the
    renderings of [v] and [v'], both [(s + v) + s'] and [s + (v + s')] are
    [s], [r], [s'] in a row, and inserting [v] and then [v'] into a stream
    holding [s] leaves [s], [r], [r'] in a row: text already written is
    never changed. *)
Theorem text_overloads_compose cfg to_string s s' v v' r r' :
  operator_string cfg to_string v = Some r ->
  operator_string cfg to_string v' = Some r' ->
  (a <- plus_string_t cfg to_string s v ;; Some (a ++ s')%string)
    = Some (s ++ r ++ s')%string /\
  (b <- plus_t_string cfg to_string v s' ;; Some (s ++ b)%string)
    = Some (s ++ r ++ s')%string /\
  (o <- stream_insert cfg to_string s v ;; stream_insert cfg to_string o v')
    = Some (s ++ r ++ r')%string.
Proof.
  intros Hr Hr'. unfold plus_string_t, plus_t_string, stream_insert.
  rewrite Hr. simpl. rewrite Hr'. simpl.
  now rewrite !append_assoc.
Qed.

Lemma text_overloads_compose_witness :
  operator_string None (fun _ => "1.5"%string)
    (mk_t (shape.make 8 (-1) unsigned) 3) = Some "1.5"%string /\
  (o <- stream_insert None (fun _ => "1.5"%string) "x = "
          (mk_t (shape.make 8 (-1) unsigned) 3) ;;
   stream_insert None (fun _ => "1.5"%string) o
     (mk_t (shape.make 8 (-1) unsigned) 3))
  = Some "x = 1.51.5"%string.
Proof.
  assert (H : operator_string None (fun _ => "1.5"%string)
                (mk_t (shape.make 8 (-1) unsigned) 3) = Some "1.5"%string)
    by reflexivity.
  split; [exact H|].
  exact (proj2 (proj2 (text_overloads_compose None (fun _ => "1.5"%string)
                         "x = " "" _ _ _ _ H H))).
Defined.
